(** * The retrieval core of the DeepEval RAG examples

    A shallow embedding of the functions that [docGPT/deepDocGevalGolden.py]
    and [docGPT/deepDocTestCase.py] share verbatim:

    - [load_document], the loader of the knowledge file,
    - [split_into_chunks], the period-based chunker,
    - [retrieve_context], the nearest-chunk lookup by cosine similarity, and
    - [doc_gpt], the answering function,

    of the loops that set up the test cases (also in [docGPT/gevalExe.py]),
    and of the weather agent of [intro/agentic.py].

    Python strings are sequences of Unicode code points; they are modelled as
    lists of code points, so that [len] is the list length.  The chunk size is
    a Python [int] and is modelled by [Z].  The embedding model, the file
    system and [str.lower] are external collaborators and enter as Section
    variables; scikit-learn's [cosine_similarity] and NumPy's [argmax] are
    modelled over the real numbers (an idealisation of their floating-point
    arithmetic), and the values drawn by [random] are arguments. *)

From Stdlib Require Import List ZArith NArith Bool Lia String Ascii.
From Stdlib Require Import Reals Lra.
Import ListNotations.

Open Scope Z_scope.

(** ** Python strings *)

Module PyStr.

(** A character is its code point. *)
Definition char : Type := N.

Definition str : Type := list char.

(** [py s] is the Python string written as the ASCII literal [s]. *)
Definition py (s : string) : str :=
  List.map N_of_ascii (list_ascii_of_string s).

(** The code point of the full stop, the separator of the chunker. *)
Definition period : char := 46%N.

(** [len(s)] *)
Definition len (s : str) : Z := Z.of_nat (List.length s).

(** The characters [str.strip()] removes: CPython's [Py_UNICODE_ISSPACE]. *)
Definition isspace (c : char) : bool :=
  ((9 <=? c) && (c <=? 13) || (28 <=? c) && (c <=? 32)
   || (c =? 133) || (c =? 160) || (c =? 5760)
   || (8192 <=? c) && (c <=? 8202)
   || (c =? 8232) || (c =? 8233) || (c =? 8239) || (c =? 8287)
   || (c =? 12288))%N.

(** [s.lstrip()] *)
Fixpoint lstrip (s : str) : str :=
  match s with
  | [] => []
  | c :: rest => if isspace c then lstrip rest else s
  end.

(** [s.rstrip()] *)
Definition rstrip (s : str) : str := rev (lstrip (rev s)).

(** [s.strip()] *)
Definition strip (s : str) : str := rstrip (lstrip s).

(** [text.split(sep)] for a one-character separator: the pieces between the
    occurrences of [sep], one more than there are occurrences; the empty
    string splits into one empty piece. *)
Fixpoint split (text : str) (sep : char) : list str :=
  match text with
  | [] => [[]]
  | c :: rest =>
      if (c =? sep)%N then [] :: split rest sep
      else match split rest sep with
           | piece :: pieces => (c :: piece) :: pieces
           | [] => [[c]]
           end
  end.

(** [sep.join(pieces)], the inverse of [split]. *)
Fixpoint join (sep : char) (pieces : list str) : str :=
  match pieces with
  | [] => []
  | [piece] => piece
  | piece :: rest => piece ++ sep :: join sep rest
  end.

(** The text with every whitespace character removed. *)
Definition no_space (s : str) : str :=
  filter (fun c => negb (isspace c)) s.

(** The text with every whitespace character and every period removed. *)
Definition content (s : str) : str :=
  filter (fun c => negb (isspace c) && negb (c =? period)%N) s.

End PyStr.

(** ** The chunker *)

Module Chunker.
Import PyStr.

(** The two variables the loop of [split_into_chunks] updates. *)
Record loop_state : Type := mk_state { chunks : list str; current : str }.

(** One iteration of [for sentence in sentences]. *)
Definition loop_body (chunk_size : Z) (st : loop_state) (sentence : str)
  : loop_state :=
  if len (current st) + len sentence <? chunk_size
  then mk_state (chunks st) (current st ++ sentence ++ [period])
  else mk_state (chunks st ++ [strip (current st)]) (sentence ++ [period]).

(** [split_into_chunks(text, chunk_size)] *)
Definition split_into_chunks (text : str) (chunk_size : Z) : list str :=
  let sentences := split text period in
  let st := fold_left (loop_body chunk_size) sentences (mk_state [] []) in
  match current st with
  | [] => chunks st
  | _ :: _ => chunks st ++ [strip (current st)]
  end.

(** The default of the [chunk_size] parameter. *)
Definition default_chunk_size : Z := 100.

End Chunker.

(** ** The retriever *)

Module Retriever.
Import PyStr.
Local Open Scope R_scope.

(** How a retrieval can end without a chunk: [ValueError] and [IndexError]
    are the Python exceptions NumPy, scikit-learn and list indexing raise on
    this path; [EmptyCorpus] and [DegenerateEmbedding] are the errors the
    specification names for it. *)
Inductive exception : Type :=
  | ValueError
  | IndexError
  | EmptyCorpus
  | DegenerateEmbedding.

Definition result (A : Type) : Type := (exception + A)%type.

(** An embedding: one row of a 2-D array. *)
Definition vec : Type := list R.

(** The inner product of two rows. *)
Fixpoint dot (u v : vec) : R :=
  match u, v with
  | x :: u', y :: v' => x * y + dot u' v'
  | _, _ => 0
  end.

(** scikit-learn's [row_norms]: the Euclidean norm of a row. *)
Definition row_norm (v : vec) : R := sqrt (dot v v).

(** scikit-learn's [_handle_zeros_in_scale]: a zero norm is replaced by 1,
    so that a zero row is divided by 1 and stays zero. *)
Definition handle_zeros_in_scale (n : R) : R :=
  if Req_dec_T n 0 then 1 else n.

(** scikit-learn's [normalize] (l2) on one row. *)
Definition normalize (v : vec) : vec :=
  let n := handle_zeros_in_scale (row_norm v) in
  List.map (fun x => x / n) v.

(** scikit-learn's [check_pairwise_arrays]: [Y] has at least one row, rows
    have at least one feature, and every row of [Y] is as long as [x]. *)
Definition check_pairwise_arrays (x : vec) (Y : list vec) : bool :=
  negb (Nat.eqb (List.length Y) 0)
  && negb (Nat.eqb (List.length x) 0)
  && forallb (fun y => Nat.eqb (List.length y) (List.length x)) Y.

(** One entry of the similarity matrix: the inner product of the two
    normalised rows. *)
Definition cosine (x y : vec) : R := dot (normalize x) (normalize y).

(** [cosine_similarity(x, Y)[0]]: the similarity of the query row to every
    row of [Y]; a [ValueError] when the shapes are refused. *)
Definition cosine_similarity (x : vec) (Y : list vec) : result (list R) :=
  if check_pairwise_arrays x Y
  then inr (List.map (cosine x) Y)
  else inl ValueError.

(** The scan of [np.argmax]: the running maximum changes only on a strictly
    larger score, so the first maximal index is kept. *)
Fixpoint argmax_from (best : R) (best_i i : nat) (scores : list R) : nat :=
  match scores with
  | [] => best_i
  | s :: rest =>
      if Rlt_dec best s then argmax_from s i (S i) rest
      else argmax_from best best_i (S i) rest
  end.

(** [np.argmax(scores)]; NumPy raises [ValueError] on an empty sequence. *)
Definition argmax (scores : list R) : result nat :=
  match scores with
  | [] => inl ValueError
  | s :: rest => inr (argmax_from s 0%nat 1%nat rest)
  end.

(** The body of [retrieve_context] once the query is embedded:
    [scores = cosine_similarity(query_emb, chunk_embeddings)[0]] and
    [chunks[np.argmax(scores)]]. *)
Definition retrieve (chunks : list str) (chunk_embeddings : list vec)
    (query_emb : vec) : result str :=
  match cosine_similarity query_emb chunk_embeddings with
  | inl e => inl e
  | inr scores =>
      match argmax scores with
      | inl e => inl e
      | inr i =>
          match nth_error chunks i with
          | Some best_chunk => inr best_chunk
          | None => inl IndexError
          end
      end
  end.

Section Corpus.

(** [embedding_model.encode] on one text: the external sentence embedder. *)
Variable encode : str -> vec.

(** The module-level [chunks]. *)
Variable chunks : list str.

(** [chunk_embeddings = embedding_model.encode(chunks)] *)
Definition chunk_embeddings : list vec := List.map encode chunks.

(** [retrieve_context(query)] *)
Definition retrieve_context (query : str) : result str :=
  let query_emb := encode query in
  retrieve chunks chunk_embeddings query_emb.

End Corpus.




End Retriever.

(** ** The loader *)

Module Loader.
Import PyStr.

(** How [load_document] can fail: with its own [FileNotFoundError], which
    carries the message, or with whatever opening and reading the file
    raises. *)
Inductive load_error (E : Type) : Type :=
  | FileNotFoundError (message : str)
  | ReadError (e : E).

Arguments FileNotFoundError {E} message.
Arguments ReadError {E} e.

(** The default of the [file_path] parameter. *)
Definition default_file_path : str := py "docs/knowledge.txt".

Section FileSystem.

(** The exceptions of [open] and [read]. *)
Variable E : Type.

(** [os.path.exists] *)
Variable path_exists : str -> bool.

(** [open(file_path, "r", encoding="utf-8")] followed by [f.read()]: the
    decoded text of the file, or the exception raised. *)
Variable read_text : str -> E + str.

(** [load_document(file_path)] *)
Definition load_document (file_path : str) : load_error E + str :=
  if negb (path_exists file_path)
  then inl (FileNotFoundError (py "Document not found: " ++ file_path))
  else match read_text file_path with
       | inl e => inl (ReadError e)
       | inr contents => inr (strip contents)
       end.

End FileSystem.

End Loader.

(** ** The answering function and the evaluation set-up *)

Module DocGPT.
Import PyStr Retriever.

(** [doc_gpt(query)] over the module-level [chunks] and their embeddings: an
    exception of the retrieval propagates. *)
Definition doc_gpt (encode : str -> vec) (chunks : list str) (query : str)
  : result str :=
  match retrieve_context encode chunks query with
  | inl e => inl e
  | inr context => inr (py "Based on the document: " ++ context)
  end.

(** The module-level [chunks = split_into_chunks(document)]. *)
Definition document_chunks (document : str) : list str :=
  Chunker.split_into_chunks document Chunker.default_chunk_size.

(** One entry of [goldens]: a dict with the keys "id", "input" and
    "expected_output". *)
Record golden : Type :=
  mk_golden { id : str; input : str; expected_output : str }.

(** An [LLMTestCase] as the script builds it. *)
Record LLMTestCase : Type :=
  mk_test_case {
    tc_input : str;
    tc_actual_output : str;
    tc_expected_output : str;
    tc_metadata : list (str * str)
  }.

(** Equality of strings, for dict keys. *)
Definition str_eqb (a b : str) : bool :=
  if list_eq_dec N.eq_dec a b then true else false.

(** A dict from strings to strings, in insertion order. *)
Definition dict : Type := list (str * str).

(** [d[key] = value]: an existing key keeps its place and gets the value, a
    new key is added at the end. *)
Fixpoint dict_set (d : dict) (key value : str) : dict :=
  match d with
  | [] => [(key, value)]
  | (k, v) :: rest =>
      if str_eqb k key then (k, value) :: rest
      else (k, v) :: dict_set rest key value
  end.

(** [d[key]], [None] standing for the [KeyError]. *)
Fixpoint dict_get (d : dict) (key : str) : option str :=
  match d with
  | [] => None
  | (k, v) :: rest => if str_eqb k key then Some v else dict_get rest key
  end.

(** What the set-up of the test cases can raise: an exception of the
    retrieval, or the [KeyError] of a dict lookup. *)
Inductive setup_error : Type :=
  | Retrieval (e : exception)
  | KeyError (key : str).

Section Goldens.

(** The answering function the loops call. *)
Variable answer : str -> result str.

(** The loop [for g in goldens: actual_outputs[g["id"]] = doc_gpt(g["input"])],
    started from the dict [actual_outputs]. *)
Fixpoint collect_outputs (goldens : list golden) (actual_outputs : dict)
  : setup_error + dict :=
  match goldens with
  | [] => inr actual_outputs
  | g :: rest =>
      match answer (input g) with
      | inl e => inl (Retrieval e)
      | inr output =>
          collect_outputs rest (dict_set actual_outputs (id g) output)
      end
  end.

(** The loop that appends one [LLMTestCase] per golden to [test_cases]. *)
Fixpoint build_test_cases (goldens : list golden) (actual_outputs : dict)
  : setup_error + list LLMTestCase :=
  match goldens with
  | [] => inr []
  | g :: rest =>
      match dict_get actual_outputs (id g) with
      | None => inl (KeyError (id g))
      | Some actual =>
          match build_test_cases rest actual_outputs with
          | inl e => inl e
          | inr test_cases =>
              inr (mk_test_case (input g) actual (expected_output g)
                     [(py "golden_id", id g)]
                   :: test_cases)
          end
      end
  end.

(** Steps 2 and 3 of the script: collect the outputs into an empty dict,
    then build the test cases. *)
Definition run_setup (goldens : list golden)
  : setup_error + list LLMTestCase :=
  match collect_outputs goldens [] with
  | inl e => inl e
  | inr actual_outputs => build_test_cases goldens actual_outputs
  end.

End Goldens.

(** The [goldens] of the script. *)
Definition goldens : list golden :=
  [ mk_golden (py "q1") (py "Where is the Eiffel Tower located?")
      (py "The Eiffel Tower is located in Paris, France.");
    mk_golden (py "q2") (py "What is the highest mountain in the world?")
      (py "Mount Everest is the highest mountain in the world.");
    mk_golden (py "q3")
      (py "Who is the current president of the United States?")
      (py "Joe Biden is current president of the United States.") ].

End DocGPT.

(** ** The weather agent of [intro/agentic.py] *)

Module Agentic.
Import PyStr.
Local Open Scope R_scope.

(** [s.startswith(prefix)] *)
Fixpoint startswith (s prefix : str) : bool :=
  match prefix, s with
  | [], _ => true
  | p :: prefix', c :: s' => (c =? p)%N && startswith s' prefix'
  | _ :: _, [] => false
  end.

(** [needle in s]: [needle] occurs in [s] as a substring. *)
Fixpoint contains (s needle : str) : bool :=
  startswith s needle
  || match s with
     | [] => false
     | _ :: rest => contains rest needle
     end.

(** The scan of [text.split(sep)] for a separator of any length: [skip]
    counts the characters of a found separator that are still to pass. *)
Fixpoint split_from (sep : str) (skip : nat) (text : str) : list str :=
  match text with
  | [] => [[]]
  | c :: rest =>
      match skip with
      | S k => split_from sep k rest
      | O =>
          if startswith text sep
          then [] :: split_from sep (List.length sep - 1) rest
          else match split_from sep 0 rest with
               | piece :: pieces => (c :: piece) :: pieces
               | [] => [[c]]
               end
      end
  end.

(** [text.split(sep)] for a non-empty [sep] (Python refuses an empty one):
    the pieces between the occurrences of [sep], found from the left. *)
Definition split_str (text sep : str) : list str := split_from sep 0 text.

(** [pieces[-1]] of a list that is never empty. *)
Definition last_piece (pieces : list str) : str := List.last pieces [].

(** Leading characters that belong to [chars] removed. *)
Fixpoint lstrip_chars (s chars : str) : str :=
  match s with
  | [] => []
  | c :: rest =>
      if existsb (N.eqb c) chars then lstrip_chars rest chars else s
  end.

(** [s.rstrip(chars)] *)
Definition rstrip_chars (s chars : str) : str :=
  rev (lstrip_chars (rev s) chars).

(** The line feed, the separator of the knowledge base. *)
Definition newline : char := 10%N.

(** What the agent can raise: the [IndexError] of [random.choice] on an
    empty sequence. *)
Inductive exception : Type := IndexError.

Section Agent.

(** [str.lower] *)
Variable lower : str -> str.

(** The module-level [knowledge_base]. *)
Variable knowledge_base : str.

(** The lines the noisy branch chooses from: not blank, and not naming the
    city. *)
Definition wrong_lines (city : str) : list str :=
  filter
    (fun l =>
       match strip l with [] => false | _ :: _ => true end
       && negb (contains (lower l) (lower city)))
    (split knowledge_base newline).

(** [fetch_weather(city)]; [r] is the value [random.random()] returns and
    [pick] the number from which [random.choice] takes its index. *)
Definition fetch_weather (r : R) (pick : nat) (city : str)
  : exception + str :=
  let lines := split knowledge_base newline in
  if Rlt_dec r (2 / 10) then
    match wrong_lines city with
    | [] => inl IndexError
    | _ :: _ =>
        let wrong_line :=
          nth (pick mod List.length (wrong_lines city)) (wrong_lines city) []
        in
        inr (strip (last_piece (split_str wrong_line (py "is")))
             ++ py " in " ++ city ++ py "!")
    end
  else
    match find (fun line => contains (lower line) (lower city)) lines with
    | Some line =>
        let weather :=
          rstrip_chars (strip (last_piece (split_str line (py "is")))) (py ".")
        in
        inr (weather ++ py " in " ++ city ++ py "!")
    | None => inr (py "No weather data available for " ++ city ++ py ".")
    end.

(** [call_weather_tool(city)]: the result of [fetch_weather]; the trace it
    records is not modelled. *)
Definition call_weather_tool (r : R) (pick : nat) (city : str)
  : exception + str :=
  fetch_weather r pick city.

(** The city [weather_agent] reads from the user input. *)
Definition parse_city (user_input : str) : str :=
  rstrip_chars (strip (last_piece (split_str user_input (py "in")))) (py "?").

(** [weather_agent(user_input)]; [r1] is the value of its own call of
    [random.random()], [r2] and [pick] are those of the tool. *)
Definition weather_agent (r1 r2 : R) (pick : nat) (user_input : str)
  : exception + str :=
  if Rlt_dec r1 (3 / 10) then
    inr (py "I'm not sure what you mean, maybe check the forecast yourself?")
  else if contains (lower user_input) (py "weather") then
    let city := parse_city user_input in
    match call_weather_tool r2 pick city with
    | inl e => inl e
    | inr weather_str => inr (py "The weather today: " ++ weather_str)
    end
  else inr (py "I can only help with weather inquiries.").

End Agent.

End Agentic.

(** * Properties of the chunker *)

Import PyStr Chunker.

(** ** Strings *)

Lemma period_not_space : isspace period = false.
Proof. reflexivity. Qed.

Lemma split_not_nil (text : str) (sep : char) : split text sep <> [].
Proof.
  destruct text as [|c rest]; simpl; [discriminate|].
  destruct (c =? sep)%N; [discriminate|].
  destruct (split rest sep); discriminate.
Qed.

Lemma join_split (text : str) (sep : char) : join sep (split text sep) = text.
Proof.
  induction text as [|c rest IH]; simpl; [reflexivity|].
  destruct (N.eqb_spec c sep) as [->|Hne].
  - pose proof (split_not_nil rest sep) as Hnil.
    simpl. destruct (split rest sep) as [|p ps]; [contradiction|].
    now rewrite IH.
  - pose proof (split_not_nil rest sep) as Hnil.
    destruct (split rest sep) as [|p ps]; [contradiction|].
    simpl in *. destruct ps; simpl; now rewrite <- IH.
Qed.

(** Putting the separator back after every piece rebuilds the text followed
    by one more separator. *)
Lemma concat_split (text : str) (sep : char) :
  List.concat (List.map (fun s => s ++ [sep]) (split text sep)) = text ++ [sep].
Proof.
  induction text as [|c rest IH]; simpl; [reflexivity|].
  destruct (N.eqb_spec c sep) as [->|Hne].
  - simpl. now rewrite IH.
  - pose proof (split_not_nil rest sep) as Hnil.
    destruct (split rest sep) as [|p ps]; [contradiction|].
    simpl in *. now rewrite IH.
Qed.

Lemma split_no_sep (text : str) (sep : char) :
  ~ In sep text -> split text sep = [text].
Proof.
  induction text as [|c rest IH]; simpl; intros Hin; [reflexivity|].
  destruct (N.eqb_spec c sep) as [->|Hne]; [tauto|].
  rewrite IH by tauto. reflexivity.
Qed.

Lemma no_space_app (a b : str) : no_space (a ++ b) = no_space a ++ no_space b.
Proof. apply filter_app. Qed.

Lemma no_space_lstrip (s : str) : no_space (lstrip s) = no_space s.
Proof.
  induction s as [|c rest IH]; simpl; [reflexivity|].
  destruct (isspace c) eqn:E; simpl; [exact IH | now rewrite E].
Qed.

Lemma no_space_rev (s : str) : no_space (rev s) = rev (no_space s).
Proof.
  induction s as [|c rest IH]; simpl; [reflexivity|].
  rewrite no_space_app, IH. simpl.
  destruct (isspace c); simpl; [now rewrite app_nil_r | reflexivity].
Qed.

(** Trimming removes whitespace only. *)
Lemma no_space_strip (s : str) : no_space (strip s) = no_space s.
Proof.
  unfold strip, rstrip.
  now rewrite no_space_rev, no_space_lstrip, no_space_rev, rev_involutive,
    no_space_lstrip.
Qed.

Lemma content_no_space (s : str) :
  content s = filter (fun c => negb (c =? period)%N) (no_space s).
Proof.
  unfold content, no_space.
  induction s as [|c rest IH]; simpl; [reflexivity|].
  destruct (isspace c); simpl; [exact IH|].
  destruct (c =? period)%N; simpl; now rewrite IH.
Qed.

Lemma lstrip_length (s : str) : (List.length (lstrip s) <= List.length s)%nat.
Proof.
  induction s as [|c rest IH]; simpl; [lia|].
  destruct (isspace c); simpl; lia.
Qed.

(** Trimming never lengthens a string. *)
Lemma strip_len (s : str) : len (strip s) <= len s.
Proof.
  unfold len, strip, rstrip.
  rewrite length_rev.
  pose proof (lstrip_length (rev (lstrip s))) as H1.
  rewrite length_rev in H1.
  pose proof (lstrip_length s). lia.
Qed.

Lemma len_app (a b : str) : len (a ++ b) = len a + len b.
Proof. unfold len. rewrite length_app. lia. Qed.

Lemma lstrip_snoc (a : str) (c : char) :
  isspace c = false -> exists a', lstrip (a ++ [c]) = a' ++ [c].
Proof.
  intros Hc. induction a as [|x rest IH]; simpl.
  - rewrite Hc. now exists [].
  - destruct (isspace x); [exact IH|]. now exists (x :: rest).
Qed.

(** A string that ends in a period is not trimmed to nothing. *)
Lemma strip_snoc_period (a : str) : strip (a ++ [period]) <> [].
Proof.
  destruct (lstrip_snoc a period period_not_space) as [a' Ha'].
  unfold strip, rstrip. rewrite Ha', rev_app_distr.
  change (rev [period] ++ rev a') with (period :: rev a').
  cbn [lstrip]. rewrite period_not_space.
  intros H. apply (f_equal (@List.length _)) in H.
  rewrite length_rev in H. simpl in H. lia.
Qed.

(** ** The loop *)

Lemma loop_body_current (chunk_size : Z) (st : loop_state) (sentence : str) :
  exists a, current (loop_body chunk_size st sentence) = a ++ [period].
Proof.
  unfold loop_body.
  destruct (len (current st) + len sentence <? chunk_size); simpl.
  - exists (current st ++ sentence). now rewrite <- app_assoc.
  - now exists sentence.
Qed.

(** After at least one iteration the accumulator ends in a period. *)
Lemma loop_current_period (chunk_size : Z) (sentences : list str) :
  forall st,
    (exists a, current st = a ++ [period]) \/ sentences <> [] ->
    exists a,
      current (fold_left (loop_body chunk_size) sentences st) = a ++ [period].
Proof.
  induction sentences as [|s rest IH]; simpl; intros st H.
  - destruct H as [H|H]; [exact H | contradiction].
  - apply IH. left. apply loop_body_current.
Qed.

(** What an iteration writes, whitespace aside, is the fragment it reads and
    a period. *)
Lemma loop_body_no_space (chunk_size : Z) (st : loop_state) (s : str) :
  let st' := loop_body chunk_size st s in
  no_space (List.concat (chunks st') ++ current st')
  = no_space (List.concat (chunks st) ++ current st) ++ no_space (s ++ [period]).
Proof.
  unfold loop_body.
  destruct (len (current st) + len s <? chunk_size); simpl.
  - now rewrite !no_space_app, <- !app_assoc.
  - rewrite concat_app. simpl.
    now rewrite !no_space_app, no_space_strip, app_nil_r, <- !app_assoc.
Qed.

Lemma loop_no_space (chunk_size : Z) (sentences : list str) :
  forall st,
    let st' := fold_left (loop_body chunk_size) sentences st in
    no_space (List.concat (chunks st') ++ current st')
    = no_space (List.concat (chunks st) ++ current st)
      ++ no_space (List.concat (List.map (fun s => s ++ [period]) sentences)).
Proof.
  induction sentences as [|s rest IH]; simpl; intros st.
  - now rewrite app_nil_r.
  - rewrite IH, loop_body_no_space.
    now rewrite (no_space_app (s ++ [period])), <- app_assoc.
Qed.

(** The chunks of a run, the final flush included, cover the text. *)
Lemma split_into_chunks_no_space (text : str) (chunk_size : Z) :
  no_space (List.concat (split_into_chunks text chunk_size))
  = no_space text ++ [period].
Proof.
  unfold split_into_chunks.
  pose proof (loop_no_space chunk_size (split text period) (mk_state [] [])) as H.
  cbv zeta in H. rewrite concat_split in H. simpl in H.
  destruct (loop_current_period chunk_size (split text period) (mk_state [] []))
    as [a Ha]; [right; apply split_not_nil|].
  set (st := fold_left (loop_body chunk_size) (split text period) (mk_state [] []))
    in *.
  replace (no_space text ++ [period]) with (no_space (text ++ [period]))
    by (rewrite no_space_app; reflexivity).
  rewrite <- H.
  destruct (current st) as [|c cur] eqn:Ecur.
  - destruct a; discriminate.
  - rewrite concat_app. simpl.
    now rewrite !no_space_app, no_space_strip, app_nil_r.
Qed.

(** The size bound the loop maintains: a chunk is within the threshold or is
    one fragment with its period, and so is the accumulator. *)
Lemma loop_bounded (t : Z) (fragments : list str) (sentences : list str) :
  forall st,
    (forall s, In s sentences -> In s fragments) ->
    (len (current st) <= t
     \/ exists s, In s fragments /\ current st = s ++ [period]) ->
    (forall c, In c (chunks st) ->
       len c <= t
       \/ exists s, In s fragments /\ c = strip (s ++ [period])
                    /\ t < len (s ++ [period])) ->
    let st' := fold_left (loop_body t) sentences st in
    (len (current st') <= t
     \/ exists s, In s fragments /\ current st' = s ++ [period])
    /\ (forall c, In c (chunks st') ->
          len c <= t
          \/ exists s, In s fragments /\ c = strip (s ++ [period])
                       /\ t < len (s ++ [period])).
Proof.
  induction sentences as [|s rest IH]; simpl; intros st Hin Hcur Hchunks.
  - split; assumption.
  - apply IH.
    + intros s' Hs'. apply Hin. now right.
    + unfold loop_body.
      destruct (Z.ltb_spec (len (current st) + len s) t) as [Hlt|Hge]; simpl.
      * left. rewrite !len_app. change (len [period]) with 1. lia.
      * right. exists s. split; [apply Hin; now left | reflexivity].
    + unfold loop_body.
      destruct (Z.ltb_spec (len (current st) + len s) t) as [Hlt|Hge]; simpl.
      * exact Hchunks.
      * intros c Hc. apply in_app_or in Hc. destruct Hc as [Hc|[<-|[]]].
        { now apply Hchunks. }
        pose proof (strip_len (current st)) as Hstrip.
        destruct Hcur as [Hle|[s0 [Hs0 Heq]]]; [left; lia|].
        destruct (Z.le_gt_cases (len (current st)) t) as [Hle|Hgt];
          [left; lia|].
        right. exists s0. rewrite Heq in *. repeat split; [assumption | lia].
Qed.

(** Once the accumulator ends in a period, every chunk the loop flushes is
    non-empty. *)
Lemma loop_later_chunks (chunk_size : Z) (sentences : list str) :
  forall st,
    (exists a, current st = a ++ [period]) ->
    exists later,
      chunks (fold_left (loop_body chunk_size) sentences st)
      = chunks st ++ later
      /\ Forall (fun c => c <> []) later.
Proof.
  induction sentences as [|s rest IH]; simpl; intros st Hcur.
  - exists []. now rewrite app_nil_r.
  - destruct (IH (loop_body chunk_size st s) (loop_body_current _ _ _))
      as (later & Heq & Hall).
    rewrite Heq. unfold loop_body.
    destruct (len (current st) + len s <? chunk_size); simpl.
    + now exists later.
    + exists (strip (current st) :: later). rewrite <- app_assoc. split;
        [reflexivity|].
      constructor; [|assumption].
      destruct Hcur as [a ->]. apply strip_snoc_period.
Qed.

(** ** The claims about the chunker *)

(** C1 (what the program computes on the scenario).  For the document
    "A is a. B is b. C is c." the fragment after the last period is empty and
    receives a period of its own: with threshold 100 the single chunk ends in
    two periods, and with threshold 8 a fourth chunk "." follows the three
    sentences. *)
Theorem split_into_chunks_scenario :
  split_into_chunks (py "A is a. B is b. C is c.") 100
  = [py "A is a. B is b. C is c.."]
  /\ split_into_chunks (py "A is a. B is b. C is c.") 8
     = [py "A is a."; py "B is b."; py "C is c."; py "."].
Proof. split; vm_compute; reflexivity. Qed.

(** C2.  For every text and every threshold [t > 0], a chunk longer than [t]
    is a single sentence, one fragment of the text with its period put back
    and trimmed, and that sentence is longer than [t]. *)
Theorem chunk_bounded (text : str) (t : Z) (c : str) :
  0 < t ->
  In c (split_into_chunks text t) ->
  len c <= t
  \/ exists s, In s (split text period) /\ c = strip (s ++ [period])
               /\ t < len (s ++ [period]).
Proof.
  intros Ht Hc. unfold split_into_chunks in Hc.
  destruct (loop_bounded t (split text period) (split text period)
              (mk_state [] [])) as [Hcur Hchunks]; simpl.
  - auto.
  - left. change (len []) with 0. lia.
  - intros c' [].
  - set (st := fold_left (loop_body t) (split text period) (mk_state [] []))
      in *.
    assert (Hlast :
      len (strip (current st)) <= t
      \/ exists s, In s (split text period)
                   /\ strip (current st) = strip (s ++ [period])
                   /\ t < len (s ++ [period])).
    { pose proof (strip_len (current st)) as Hstrip.
      destruct Hcur as [Hle|[s0 [Hs0 Heq]]]; [left; lia|].
      destruct (Z.le_gt_cases (len (current st)) t) as [Hle|Hgt];
        [left; lia|].
      right. exists s0. rewrite Heq in *. repeat split; [assumption | lia]. }
    destruct (current st) as [|x cur] eqn:Ecur.
    + now apply Hchunks.
    + apply in_app_or in Hc. destruct Hc as [Hc|[<-|[]]].
      * now apply Hchunks.
      * exact Hlast.
Qed.

Lemma chunk_bounded_witness :
  len (py "B is b.") <= 8
  \/ exists s, In s (split (py "A is a. B is b. C is c.") period)
               /\ py "B is b." = strip (s ++ [period])
               /\ 8 < len (s ++ [period]).
Proof.
  apply (chunk_bounded (py "A is a. B is b. C is c.") 8 (py "B is b.")).
  - lia.
  - vm_compute. right. left. reflexivity.
Defined.

(** The bound at its edge: a fragment of exactly [t] characters is flushed
    alone, and with its period the chunk has [t + 1] characters. *)
Lemma chunk_bound_edge :
  split_into_chunks (py "abc") 3 = [[]; py "abc."]
  /\ len (py "abc.") = 4.
Proof. split; vm_compute; reflexivity. Qed.

(** C3 (what the program computes).  When the first fragment is not shorter
    than the chunk size the loop flushes the still empty accumulator: the
    first chunk is the empty string.  The second input does so under the
    default chunk size of 100. *)
Theorem empty_first_chunk :
  split_into_chunks (py "Hello world. Bye.") 5
  = [[]; py "Hello world."; py "Bye."; py "."]
  /\ split_into_chunks (repeat 97%N 100) default_chunk_size
     = [[]; repeat 97%N 100 ++ py "."].
Proof. split; vm_compute; reflexivity. Qed.

(** Where the empty chunk can be: only in front.  When the first fragment is
    shorter than the chunk size every chunk is non-empty; otherwise the
    result is one empty chunk followed by non-empty chunks. *)
Lemma only_first_chunk_empty (text : str) (chunk_size : Z) :
  if len (hd [] (split text period)) <? chunk_size
  then Forall (fun c => c <> []) (split_into_chunks text chunk_size)
  else exists later,
         split_into_chunks text chunk_size = [] :: later
         /\ Forall (fun c => c <> []) later.
Proof.
  unfold split_into_chunks.
  pose proof (split_not_nil text period) as Hnil.
  destruct (loop_current_period chunk_size (split text period) (mk_state [] []))
    as [a Ha]; [now right|].
  destruct (split text period) as [|s0 rest]; [contradiction|].
  simpl in *.
  destruct (loop_later_chunks chunk_size rest
              (loop_body chunk_size (mk_state [] []) s0)
              (loop_body_current _ _ _)) as (later & Heq & Hall).
  rewrite Ha, Heq.
  assert (Hflush :
    match a ++ [period] with
    | [] => chunks (loop_body chunk_size (mk_state [] []) s0) ++ later
    | _ :: _ => (chunks (loop_body chunk_size (mk_state [] []) s0) ++ later)
                ++ [strip (a ++ [period])]
    end
    = chunks (loop_body chunk_size (mk_state [] []) s0)
      ++ (later ++ [strip (a ++ [period])])).
  { destruct (a ++ [period]) eqn:E; [destruct a; discriminate|].
    now rewrite app_assoc. }
  rewrite Hflush.
  assert (Hall' : Forall (fun c : str => c <> [])
                    (later ++ [strip (a ++ [period])])).
  { apply Forall_app. split; [assumption|].
    constructor; [apply strip_snoc_period | constructor]. }
  unfold loop_body. simpl.
  destruct (len s0 <? chunk_size); simpl.
  - exact Hall'.
  - eexists. split; [reflexivity | exact Hall'].
Qed.

(** C4 (what the program computes).  The empty document splits into one
    empty fragment, which receives a period: the result is the one chunk "."
    (preceded by an empty chunk when the chunk size is not positive). *)
Theorem empty_document_chunks (chunk_size : Z) :
  split_into_chunks [] chunk_size
  = if 0 <? chunk_size then [py "."] else [[]; py "."].
Proof.
  unfold split_into_chunks. simpl. unfold loop_body. simpl.
  change (len []) with 0.
  destruct (0 <? chunk_size); reflexivity.
Qed.

(** C5.  For every non-empty document with at least one period there is at
    least one chunk, and the chunks concatenated, whitespace ignored, are the
    document, whitespace ignored, followed by the one period the chunker
    adds after the last fragment; ignoring periods as well, both have the
    same content. *)
Theorem chunks_cover_document (text : str) (chunk_size : Z) :
  text <> [] ->
  In period text ->
  (1 <= List.length (split_into_chunks text chunk_size))%nat
  /\ no_space (List.concat (split_into_chunks text chunk_size))
     = no_space text ++ [period]
  /\ content (List.concat (split_into_chunks text chunk_size)) = content text.
Proof.
  intros _ _.
  pose proof (split_into_chunks_no_space text chunk_size) as H.
  repeat split.
  - destruct (split_into_chunks text chunk_size); [|simpl; lia].
    simpl in H. destruct (no_space text); discriminate.
  - exact H.
  - rewrite !content_no_space, H, filter_app. simpl. apply app_nil_r.
Qed.

Lemma chunks_cover_document_witness :
  (1 <= List.length (split_into_chunks (py "A is a. B is b. C is c.") 8))%nat
  /\ no_space (List.concat (split_into_chunks (py "A is a. B is b. C is c.") 8))
     = no_space (py "A is a. B is b. C is c.") ++ [period]
  /\ content (List.concat (split_into_chunks (py "A is a. B is b. C is c.") 8))
     = content (py "A is a. B is b. C is c.").
Proof.
  apply (chunks_cover_document (py "A is a. B is b. C is c.") 8).
  - discriminate.
  - vm_compute. tauto.
Defined.

(** C6, as stated, fails: the document "abc" has no period, and its one
    chunk is "abc.", not the document. *)
Lemma no_period_counterexample :
  py "abc" <> []
  /\ ~ In period (py "abc")
  /\ split_into_chunks (py "abc") 100 = [py "abc."]
  /\ split_into_chunks (py "abc") 100 <> [py "abc"].
Proof.
  repeat split; try discriminate.
  vm_compute. intuition discriminate.
Qed.

(** C6, amended.  For every non-empty document with no period that is
    shorter than the chunk size, the result is exactly one chunk: the
    document with a period appended, trimmed. *)
Theorem no_period_single_chunk (text : str) (chunk_size : Z) :
  text <> [] ->
  ~ In period text ->
  len text < chunk_size ->
  split_into_chunks text chunk_size = [strip (text ++ [period])].
Proof.
  intros Hne Hnp Hlen. unfold split_into_chunks.
  rewrite split_no_sep by assumption. simpl. unfold loop_body. simpl.
  destruct (Z.ltb_spec (len text) chunk_size) as [_|Hge]; [|lia].
  simpl. destruct text as [|c rest]; [contradiction | reflexivity].
Qed.

Lemma no_period_single_chunk_witness :
  split_into_chunks (py " abc") 100 = [strip (py " abc" ++ [period])].
Proof.
  apply (no_period_single_chunk (py " abc") 100).
  - discriminate.
  - vm_compute. intuition discriminate.
  - vm_compute. reflexivity.
Defined.

(** C10.  For every text, the empty one included, and every chunk size, the
    result holds at least one chunk: the accumulator ends in a period after
    the loop and is flushed. *)
Theorem split_into_chunks_not_nil (text : str) (chunk_size : Z) :
  split_into_chunks text chunk_size <> []
  /\ (1 <= List.length (split_into_chunks text chunk_size))%nat
  /\ exists a,
       current (fold_left (loop_body chunk_size) (split text period)
                  (mk_state [] [])) = a ++ [period].
Proof.
  destruct (loop_current_period chunk_size (split text period) (mk_state [] []))
    as [a Ha]; [right; apply split_not_nil|].
  unfold split_into_chunks. rewrite Ha.
  repeat split.
  - destruct (a ++ [period]) eqn:E; [destruct a; discriminate|].
    intros H. apply app_eq_nil in H. destruct H; discriminate.
  - destruct (a ++ [period]) eqn:E; [destruct a; discriminate|].
    rewrite length_app. simpl. lia.
  - now exists a.
Qed.

(** * Further properties of the chunker *)

(** ** Trimming *)

Lemma lstrip_app (a b : str) :
  lstrip (a ++ b) = if forallb isspace a then lstrip b else lstrip a ++ b.
Proof.
  induction a as [|c a IH]; simpl; [reflexivity|].
  destruct (isspace c); simpl; [exact IH | reflexivity].
Qed.

Lemma lstrip_all_space (a : str) : forallb isspace a = true -> lstrip a = [].
Proof.
  induction a as [|c a IH]; simpl; [reflexivity|].
  destruct (isspace c); simpl; [exact IH | discriminate].
Qed.

Lemma lstrip_head (s : str) (c : char) (rest : str) :
  lstrip s = c :: rest -> isspace c = false.
Proof.
  induction s as [|x s IH]; simpl; [discriminate|].
  destruct (isspace x) eqn:E; [exact IH|].
  intros H. inversion H. subst. exact E.
Qed.

Lemma lstrip_idem (s : str) : lstrip (lstrip s) = lstrip s.
Proof.
  destruct (lstrip s) as [|c rest] eqn:E; [reflexivity|].
  simpl. now rewrite (lstrip_head s c rest E).
Qed.

Lemma rstrip_snoc (a : str) (c : char) :
  isspace c = false -> rstrip (a ++ [c]) = a ++ [c].
Proof.
  intros Hc. unfold rstrip. rewrite rev_app_distr. simpl. rewrite Hc.
  simpl. now rewrite rev_involutive.
Qed.

Lemma rstrip_idem (s : str) : rstrip (rstrip s) = rstrip s.
Proof. unfold rstrip. now rewrite rev_involutive, lstrip_idem. Qed.

(** Trimming on the right keeps a first character that is not whitespace. *)
Lemma rstrip_cons (c : char) (s : str) :
  isspace c = false -> rstrip (c :: s) = c :: rstrip s.
Proof.
  intros Hc. unfold rstrip. simpl. rewrite lstrip_app.
  destruct (forallb isspace (rev s)) eqn:E.
  - simpl. rewrite Hc. now rewrite (lstrip_all_space _ E).
  - rewrite rev_app_distr. reflexivity.
Qed.

Lemma lstrip_rstrip_lstrip (s : str) :
  lstrip (rstrip (lstrip s)) = rstrip (lstrip s).
Proof.
  destruct (lstrip s) as [|c rest] eqn:E; [reflexivity|].
  pose proof (lstrip_head s c rest E) as Hc.
  rewrite rstrip_cons by assumption. simpl. now rewrite Hc.
Qed.

(** [strip] is idempotent. *)
Lemma strip_idem (s : str) : strip (strip s) = strip s.
Proof.
  unfold strip. now rewrite lstrip_rstrip_lstrip, rstrip_idem.
Qed.

(** A trimmed string neither begins nor ends with whitespace. *)
Lemma strip_ends (s : str) :
  (forall c rest, strip s = c :: rest -> isspace c = false)
  /\ (forall init c, strip s = init ++ [c] -> isspace c = false).
Proof.
  split.
  - intros c rest H. unfold strip in H.
    rewrite <- lstrip_rstrip_lstrip in H. now apply lstrip_head in H.
  - intros init c H. unfold strip, rstrip in H.
    apply (f_equal (@rev char)) in H.
    rewrite rev_involutive, rev_app_distr in H. simpl in H.
    now apply lstrip_head in H.
Qed.

Lemma strip_all_space (s : str) : forallb isspace s = true -> strip s = [].
Proof. intros H. unfold strip. now rewrite (lstrip_all_space _ H). Qed.

(** Trimming a string that ends in a period only removes its leading
    whitespace. *)
Lemma strip_snoc_period_eq (a : str) :
  strip (a ++ [period]) = lstrip a ++ [period].
Proof.
  unfold strip. rewrite lstrip_app. simpl.
  destruct (forallb isspace a) eqn:E.
  - rewrite (lstrip_all_space _ E). reflexivity.
  - apply rstrip_snoc. reflexivity.
Qed.

(** ** The number and the shape of the chunks *)

Lemma len_nonneg (s : str) : 0 <= len s.
Proof. unfold len. lia. Qed.

Lemma len_concat_cons (s : str) (rest : list str) :
  len (List.concat (List.map (fun x => x ++ [period]) (s :: rest)))
  = len s + 1 + len (List.concat (List.map (fun x => x ++ [period]) rest)).
Proof. simpl. rewrite !len_app. change (len [period]) with 1. lia. Qed.

(** While everything read so far fits, the loop only accumulates. *)
Lemma loop_accumulates (chunk_size : Z) (sentences : list str) :
  forall st,
    sentences <> [] ->
    len (current st)
    + len (List.concat (List.map (fun x => x ++ [period]) sentences))
    <= chunk_size ->
    fold_left (loop_body chunk_size) sentences st
    = mk_state (chunks st)
        (current st
         ++ List.concat (List.map (fun x => x ++ [period]) sentences)).
Proof.
  induction sentences as [|s rest IH]; intros st Hne Hfit; [contradiction|].
  rewrite len_concat_cons in Hfit.
  pose proof (len_nonneg
    (List.concat (List.map (fun x => x ++ [period]) rest))) as Hrest.
  cbn [fold_left]. unfold loop_body at 2.
  destruct (Z.ltb_spec (len (current st) + len s) chunk_size) as [_|Hge];
    [|lia].
  destruct rest as [|s' rest'].
  - simpl. now rewrite app_nil_r.
  - rewrite IH; [| discriminate |].
    + cbn [chunks current]. f_equal.
      cbn [List.map List.concat]. now rewrite <- !app_assoc.
    + cbn [current]. rewrite !len_app. change (len [period]) with 1. lia.
Qed.

Lemma loop_chunks_mono (chunk_size : Z) (sentences : list str) :
  forall st,
    (List.length (chunks st)
     <= List.length (chunks (fold_left (loop_body chunk_size) sentences st)))%nat.
Proof.
  induction sentences as [|s rest IH]; intros st; simpl; [lia|].
  eapply Nat.le_trans; [|apply IH].
  unfold loop_body.
  destruct (len (current st) + len s <? chunk_size); simpl; [lia|].
  rewrite length_app. simpl. lia.
Qed.

(** When what is read does not fit, the loop flushes at least once. *)
Lemma loop_flushes (chunk_size : Z) (sentences : list str) :
  forall st,
    sentences <> [] ->
    chunk_size
    < len (current st)
      + len (List.concat (List.map (fun x => x ++ [period]) sentences)) ->
    (List.length (chunks st)
     < List.length (chunks (fold_left (loop_body chunk_size) sentences st)))%nat.
Proof.
  induction sentences as [|s rest IH]; intros st Hne Hbig; [contradiction|].
  rewrite len_concat_cons in Hbig.
  cbn [fold_left].
  destruct (Z.ltb_spec (len (current st) + len s) chunk_size) as [Hlt|Hge].
  - assert (Hst : loop_body chunk_size st s
                  = mk_state (chunks st) (current st ++ s ++ [period])).
    { unfold loop_body.
      destruct (Z.ltb_spec (len (current st) + len s) chunk_size); [reflexivity|lia]. }
    rewrite Hst.
    destruct rest as [|s' rest'].
    + simpl in Hbig. change (len []) with 0 in Hbig. lia.
    + specialize (IH (mk_state (chunks st) (current st ++ s ++ [period]))).
      cbn [chunks current] in IH. apply IH; [discriminate|].
      rewrite !len_app. change (len [period]) with 1. lia.
  - assert (Hst : loop_body chunk_size st s
                  = mk_state (chunks st ++ [strip (current st)]) (s ++ [period])).
    { unfold loop_body.
      destruct (Z.ltb_spec (len (current st) + len s) chunk_size); [lia|reflexivity]. }
    rewrite Hst.
    pose proof (loop_chunks_mono chunk_size rest
      (mk_state (chunks st ++ [strip (current st)]) (s ++ [period]))) as Hm.
    cbn [chunks] in Hm. rewrite length_app in Hm. simpl in Hm. lia.
Qed.

(** A document shorter than the chunk size is one chunk, the document with
    its leading whitespace removed and a period appended; any other document
    is cut into at least two chunks. *)
Theorem short_document_single_chunk (text : str) (chunk_size : Z) :
  if len text <? chunk_size
  then split_into_chunks text chunk_size = [lstrip text ++ [period]]
  else (2 <= List.length (split_into_chunks text chunk_size))%nat.
Proof.
  unfold split_into_chunks.
  pose proof (split_not_nil text period) as Hnil.
  destruct (Z.ltb_spec (len text) chunk_size) as [Hlt|Hge].
  - rewrite loop_accumulates; [| assumption |].
    + rewrite concat_split. cbn [chunks current app].
      destruct (text ++ [period]) as [|c rest] eqn:E;
        [destruct text; discriminate|].
      rewrite <- E, strip_snoc_period_eq. reflexivity.
    + rewrite concat_split, len_app. cbn [current].
      change (len []) with 0. change (len [period]) with 1. lia.
  - pose proof (loop_flushes chunk_size (split text period) (mk_state [] [])
                  Hnil) as Hflush.
    rewrite concat_split, len_app in Hflush. cbn [current chunks] in Hflush.
    change (len []) with 0 in Hflush. change (len [period]) with 1 in Hflush.
    specialize (Hflush ltac:(lia)). simpl in Hflush.
    destruct (loop_current_period chunk_size (split text period)
                (mk_state [] [])) as [a Ha]; [now right|].
    rewrite Ha.
    destruct (a ++ [period]) eqn:E; [destruct a; discriminate|].
    rewrite length_app. simpl. lia.
Qed.

(** With a chunk size that is not positive nothing is ever accumulated. *)
Lemma loop_never_accumulates (chunk_size : Z) (sentences : list str) :
  chunk_size <= 0 ->
  forall st,
    let st' := fold_left (loop_body chunk_size) sentences st in
    chunks st' ++ [strip (current st')]
    = chunks st ++ [strip (current st)]
      ++ List.map (fun s => strip (s ++ [period])) sentences.
Proof.
  intros Hsize.
  induction sentences as [|s rest IH]; intros st; simpl; [reflexivity|].
  simpl in IH. rewrite IH. unfold loop_body.
  pose proof (len_nonneg (current st)). pose proof (len_nonneg s).
  destruct (Z.ltb_spec (len (current st) + len s) chunk_size); [lia|].
  simpl. now rewrite <- app_assoc.
Qed.

(** For a chunk size of 0 or less the result is an empty chunk followed by
    every fragment of [text.split(".")] on its own, with its period and
    trimmed. *)
Theorem nonpositive_chunk_size (text : str) (chunk_size : Z) :
  chunk_size <= 0 ->
  split_into_chunks text chunk_size
  = [] :: List.map (fun s => strip (s ++ [period])) (split text period).
Proof.
  intros Hsize. unfold split_into_chunks.
  pose proof (loop_never_accumulates chunk_size (split text period) Hsize
                (mk_state [] [])) as H.
  cbv zeta in H. cbn [chunks current app] in H.
  destruct (loop_current_period chunk_size (split text period)
              (mk_state [] [])) as [a Ha]; [right; apply split_not_nil|].
  destruct (current _) as [|c cur] eqn:E in |- *.
  - rewrite E in Ha. destruct a; discriminate.
  - rewrite <- E. exact H.
Qed.

Lemma nonpositive_chunk_size_witness :
  split_into_chunks (py "Hi. Ho") 0
  = [] :: List.map (fun s => strip (s ++ [period])) (split (py "Hi. Ho") period).
Proof.
  apply (nonpositive_chunk_size (py "Hi. Ho") 0). lia.
Defined.

(** Every chunk is trimmed, and every chunk but an empty one ends in a
    period. *)
Lemma loop_trimmed (chunk_size : Z) (sentences : list str) :
  forall st,
    (current st = [] \/ exists a, current st = a ++ [period]) ->
    Forall (fun c => strip c = c /\ (c = [] \/ exists a, c = a ++ [period]))
      (chunks st) ->
    let st' := fold_left (loop_body chunk_size) sentences st in
    (current st' = [] \/ exists a, current st' = a ++ [period])
    /\ Forall (fun c => strip c = c /\ (c = [] \/ exists a, c = a ++ [period]))
         (chunks st').
Proof.
  induction sentences as [|s rest IH]; intros st Hcur Hall; simpl;
    [split; assumption|].
  apply IH.
  - right. apply loop_body_current.
  - unfold loop_body.
    destruct (len (current st) + len s <? chunk_size); simpl; [assumption|].
    apply Forall_app. split; [assumption|].
    constructor; [|constructor]. split; [apply strip_idem|].
    destruct Hcur as [->|[a ->]]; [now left|].
    right. rewrite strip_snoc_period_eq. now exists (lstrip a).
Qed.

Theorem chunks_trimmed (text : str) (chunk_size : Z) :
  Forall
    (fun c =>
       strip c = c
       /\ (forall x rest, c = x :: rest -> isspace x = false)
       /\ (c = [] \/ exists a, c = a ++ [period]))
    (split_into_chunks text chunk_size).
Proof.
  assert (Hshape : Forall
    (fun c => strip c = c /\ (c = [] \/ exists a, c = a ++ [period]))
    (split_into_chunks text chunk_size)).
  { unfold split_into_chunks.
    destruct (loop_trimmed chunk_size (split text period) (mk_state [] []))
      as [Hcur Hall]; [now left | constructor |].
    cbv zeta in *.
    destruct (current _) as [|c cur] eqn:E; [assumption|].
    apply Forall_app. split; [assumption|].
    constructor; [|constructor]. rewrite <- E. split; [apply strip_idem|].
    destruct Hcur as [H0|[a Ha]]; [discriminate|].
    right. rewrite E, Ha, strip_snoc_period_eq. now exists (lstrip a). }
  eapply Forall_impl; [|exact Hshape].
  intros c [Hstrip Hshape']. repeat split; try assumption.
  intros x rest Hc. destruct (strip_ends c) as [Hhead _].
  apply (Hhead x rest). now rewrite Hstrip.
Qed.

Lemma split_length (text : str) (sep : char) :
  List.length (split text sep) = S (count_occ N.eq_dec text sep).
Proof.
  induction text as [|c rest IH]; simpl; [reflexivity|].
  destruct (N.eqb_spec c sep) as [->|Hne].
  - destruct (N.eq_dec sep sep); [|contradiction]. simpl. now rewrite IH.
  - destruct (N.eq_dec c sep); [contradiction|].
    pose proof (split_not_nil rest sep).
    destruct (split rest sep); [contradiction|]. simpl in *. exact IH.
Qed.

Lemma loop_chunks_count (chunk_size : Z) (sentences : list str) :
  forall st,
    (List.length (chunks (fold_left (loop_body chunk_size) sentences st))
     <= List.length (chunks st) + List.length sentences)%nat.
Proof.
  induction sentences as [|s rest IH]; intros st; simpl; [lia|].
  eapply Nat.le_trans; [apply IH|].
  unfold loop_body.
  destruct (len (current st) + len s <? chunk_size); simpl; [lia|].
  rewrite length_app. simpl. lia.
Qed.

(** A text with [n] periods is cut into at most [n + 2] chunks. *)
Theorem chunk_count_bound (text : str) (chunk_size : Z) :
  (List.length (split_into_chunks text chunk_size)
   <= count_occ N.eq_dec text period + 2)%nat.
Proof.
  unfold split_into_chunks.
  pose proof (loop_chunks_count chunk_size (split text period)
                (mk_state [] [])) as H.
  rewrite split_length in H. simpl in H.
  destruct (current _); [lia|]. rewrite length_app. simpl. lia.
Qed.

(** * Properties of the retriever *)

Import Retriever.
Local Open Scope R_scope.

(** ** The first maximal index *)

Lemma argmax_from_spec (rest : list R) :
  forall (pre : list R) (best : R) (best_i : nat),
    nth_error pre best_i = Some best ->
    (forall k x, nth_error pre k = Some x -> x <= best) ->
    (forall k x, (k < best_i)%nat -> nth_error pre k = Some x -> x < best) ->
    exists m,
      nth_error (pre ++ rest) (argmax_from best best_i (List.length pre) rest)
      = Some m
      /\ (forall k x, nth_error (pre ++ rest) k = Some x -> x <= m)
      /\ (forall k x,
            (k < argmax_from best best_i (List.length pre) rest)%nat ->
            nth_error (pre ++ rest) k = Some x -> x < m).
Proof.
  induction rest as [|s rest IH]; intros pre best best_i Hbest Hmax Hfirst.
  - simpl. rewrite app_nil_r. exists best. auto.
  - assert (Hlen : List.length (pre ++ [s]) = S (List.length pre))
      by (rewrite length_app; simpl; lia).
    assert (Hs : nth_error (pre ++ [s]) (List.length pre) = Some s)
      by (rewrite nth_error_app2, Nat.sub_diag by lia; reflexivity).
    assert (Hsplit : forall k x, nth_error (pre ++ [s]) k = Some x ->
              nth_error pre k = Some x \/ x = s).
    { intros k x Hk. destruct (Nat.lt_ge_cases k (List.length pre)) as [Hlt|Hge].
      - left. now rewrite nth_error_app1 in Hk.
      - right. rewrite nth_error_app2 in Hk by assumption.
        destruct (k - List.length pre)%nat as [|n]; simpl in Hk.
        + now inversion Hk.
        + destruct n; discriminate. }
    simpl. replace (pre ++ s :: rest) with ((pre ++ [s]) ++ rest)
      by (rewrite <- app_assoc; reflexivity).
    destruct (Rlt_dec best s) as [Hlt|Hnlt].
    + specialize (IH (pre ++ [s]) s (List.length pre)).
      rewrite Hlen in IH. apply IH.
      * exact Hs.
      * intros k x Hk. destruct (Hsplit k x Hk) as [Hpre| ->]; [|lra].
        specialize (Hmax k x Hpre). lra.
      * intros k x Hk Hx. rewrite nth_error_app1 in Hx by assumption.
        specialize (Hmax k x Hx). lra.
    + specialize (IH (pre ++ [s]) best best_i).
      rewrite Hlen in IH. apply IH.
      * rewrite nth_error_app1; [assumption|].
        apply nth_error_Some. congruence.
      * intros k x Hk. destruct (Hsplit k x Hk) as [Hpre| ->]; [|lra].
        now apply (Hmax k).
      * intros k x Hk Hx. apply (Hfirst k x Hk).
        assert (best_i < List.length pre)%nat
          by (apply nth_error_Some; congruence).
        rewrite nth_error_app1 in Hx by lia. assumption.
Qed.

(** [np.argmax] of a non-empty sequence is the first index of its maximum. *)
Lemma argmax_spec (scores : list R) :
  scores <> [] ->
  exists j m,
    argmax scores = inr j
    /\ nth_error scores j = Some m
    /\ (forall k x, nth_error scores k = Some x -> x <= m)
    /\ (forall k x, (k < j)%nat -> nth_error scores k = Some x -> x < m).
Proof.
  destruct scores as [|s rest]; [contradiction|intros _].
  destruct (argmax_from_spec rest [s] s 0%nat) as [m Hm].
  - reflexivity.
  - intros [|[|k]] x Hk; simpl in Hk; try discriminate.
    inversion Hk. lra.
  - intros k x Hk. lia.
  - exists (argmax_from s 0 1 rest), m. simpl in *. tauto.
Qed.


(** ** Cosine similarity *)











(** ** Retrieval *)

Lemma cosine_similarity_checked (x : vec) (Y : list vec) :
  check_pairwise_arrays x Y = true ->
  cosine_similarity x Y = inr (List.map (cosine x) Y) /\ Y <> [].
Proof.
  intros H. unfold cosine_similarity. rewrite H. split; [reflexivity|].
  unfold check_pairwise_arrays in H. destruct Y; [discriminate H | discriminate].
Qed.






(** ** The claims about the retriever *)









(** * Properties of the loader and of the answering function *)

Import Loader DocGPT.

(** ** Loading *)

(** The three ways [load_document] ends.  A missing path is reported with
    the path in the message, whatever a read would give; an exception of the
    read is passed on; a loaded document is the trimmed text of the file: it
    neither begins nor ends with whitespace and has the non-whitespace
    characters of the file. *)
Theorem load_document_outcome (E : Type) (path_exists : str -> bool)
    (read_text : str -> E + str) (file_path : str) :
  match load_document E path_exists read_text file_path with
  | inl (FileNotFoundError message) =>
      path_exists file_path = false
      /\ message = py "Document not found: " ++ file_path
  | inl (ReadError e) =>
      path_exists file_path = true /\ read_text file_path = inl e
  | inr text =>
      path_exists file_path = true
      /\ exists contents,
           read_text file_path = inr contents
           /\ text = strip contents
           /\ strip text = text
           /\ (forall c rest, text = c :: rest -> isspace c = false)
           /\ (forall init c, text = init ++ [c] -> isspace c = false)
           /\ no_space text = no_space contents
  end.
Proof.
  unfold load_document.
  destruct (path_exists file_path); simpl; [|split; reflexivity].
  destruct (read_text file_path) as [e|contents]; [split; reflexivity|].
  split; [reflexivity|]. exists contents.
  destruct (strip_ends contents) as [Hhead Hlast].
  repeat split; auto using strip_idem, no_space_strip.
Qed.

(** ** Answering *)

Lemma check_encoded (encode : str -> vec) (d : nat) (chunks : list str)
    (query : str) :
  (0 < d)%nat ->
  (forall s, List.length (encode s) = d) ->
  chunks <> [] ->
  check_pairwise_arrays (encode query) (chunk_embeddings encode chunks) = true.
Proof.
  intros Hd Hdim Hne. unfold check_pairwise_arrays, chunk_embeddings.
  rewrite length_map, !Hdim.
  destruct chunks as [|c rest]; [contradiction|].
  destruct d; [lia|]. simpl length. cbn [Nat.eqb negb andb].
  apply forallb_forall. intros y Hy. apply in_map_iff in Hy.
  destruct Hy as [s [<- _]]. rewrite Hdim. apply Nat.eqb_refl.
Qed.

(** On accepted shapes the retrieval over the embedded chunks returns one of
    the chunks, and none is more similar to the query. *)
Lemma retrieve_encoded (encode : str -> vec) (chunks : list str)
    (query : str) :
  check_pairwise_arrays (encode query) (chunk_embeddings encode chunks) = true ->
  exists context,
    In context chunks
    /\ retrieve_context encode chunks query = inr context
    /\ forall c, In c chunks ->
         cosine (encode query) (encode c)
         <= cosine (encode query) (encode context).
Proof.
  intros Hcheck. unfold retrieve_context, retrieve.
  destruct (cosine_similarity_checked _ _ Hcheck) as [Hcos Hne].
  rewrite Hcos.
  destruct (argmax_spec
              (List.map (cosine (encode query)) (chunk_embeddings encode chunks)))
    as (j & m & Harg & Hj & Hmax & _).
  { intros H. apply map_eq_nil in H. contradiction. }
  rewrite Harg. unfold chunk_embeddings in *.
  rewrite !nth_error_map in Hj.
  destruct (nth_error chunks j) as [context|] eqn:Hctx; [|discriminate].
  simpl in Hj. inversion Hj as [Hm].
  exists context. split; [eapply nth_error_In; eassumption|].
  split; [reflexivity|].
  intros c Hc. apply In_nth_error in Hc. destruct Hc as [k Hk].
  rewrite Hm. apply (Hmax k). now rewrite !nth_error_map, Hk.
Qed.


Lemma document_chunks_not_nil (document : str) : document_chunks document <> [].
Proof.
  unfold document_chunks. intros H.
  pose proof (split_into_chunks_no_space document default_chunk_size) as Hcov.
  rewrite H in Hcov. simpl in Hcov.
  destruct (no_space document); discriminate.
Qed.



(** A file that exists and holds nothing but whitespace loads as the empty
    document; its corpus is the single chunk "." and, with an embedder of
    one fixed positive dimension, every query is answered with it. *)
Theorem blank_file_answer (E : Type) (path_exists : str -> bool)
    (read_text : str -> E + str) (file_path contents : str)
    (encode : str -> vec) (d : nat) :
  path_exists file_path = true ->
  read_text file_path = inr contents ->
  forallb isspace contents = true ->
  (0 < d)%nat ->
  (forall s, List.length (encode s) = d) ->
  load_document E path_exists read_text file_path = inr []
  /\ document_chunks [] = [py "."]
  /\ forall query,
       doc_gpt encode (document_chunks []) query
       = inr (py "Based on the document: .").
Proof.
  intros Hex Hread Hblank Hd Hdim.
  split; [|split].
  - unfold load_document. rewrite Hex, Hread. simpl.
    now rewrite (strip_all_space _ Hblank).
  - reflexivity.
  - intros query.
    pose proof (check_encoded encode d (document_chunks []) query Hd Hdim
                  (document_chunks_not_nil [])) as Hcheck.
    destruct (retrieve_encoded encode _ query Hcheck)
      as (context & Hin & Hret & _).
    unfold doc_gpt. rewrite Hret.
    change (document_chunks []) with [py "."] in Hin.
    destruct Hin as [<-|[]]. reflexivity.
Qed.

Lemma blank_file_answer_witness :
  load_document unit (fun _ => true) (fun _ => inr (py "  ")) default_file_path
  = inr []
  /\ document_chunks [] = [py "."]
  /\ forall query,
       doc_gpt (fun _ => [1; 0]) (document_chunks []) query
       = inr (py "Based on the document: .").
Proof.
  apply (blank_file_answer unit (fun _ => true) (fun _ => inr (py "  "))
           default_file_path (py "  ") (fun _ => [1; 0]) 2).
  - reflexivity.
  - reflexivity.
  - reflexivity.
  - lia.
  - reflexivity.
Defined.

(** ** Setting up the test cases *)










(** With two goldens of the same id the answer of the second overwrites the
    answer of the first: both test cases carry it. *)
Lemma run_setup_same_id :
  run_setup (fun query => inr (py "> " ++ query))
    [mk_golden (py "q") (py "one") (py "1");
     mk_golden (py "q") (py "two") (py "2")]
  = inr [mk_test_case (py "one") (py "> two") (py "1") [(py "golden_id", py "q")];
         mk_test_case (py "two") (py "> two") (py "2") [(py "golden_id", py "q")]].
Proof. vm_compute. reflexivity. Qed.

(** The ids of the script's goldens are distinct. *)
Lemma goldens_ids_distinct : NoDup (List.map id goldens).
Proof.
  repeat constructor; simpl; intuition discriminate.
Qed.

(** Building the test cases from a given dict, as [docGPT/gevalExe.py] does
    with its literal [actual_outputs]: the loop raises a [KeyError] for the
    first golden whose id is not a key, and only then; otherwise every test
    case carries the value stored under its golden's id. *)
Theorem build_test_cases_outcome (goldens : list golden)
    (actual_outputs : dict) :
  match build_test_cases goldens actual_outputs with
  | inr test_cases =>
      Forall2
        (fun g tc =>
           tc_input tc = input g
           /\ dict_get actual_outputs (id g) = Some (tc_actual_output tc)
           /\ tc_expected_output tc = expected_output g
           /\ tc_metadata tc = [(py "golden_id", id g)])
        goldens test_cases
  | inl (KeyError key) =>
      exists before g after,
        goldens = before ++ g :: after
        /\ key = id g
        /\ dict_get actual_outputs key = None
        /\ forall g', In g' before ->
             dict_get actual_outputs (id g') <> None
  | inl (Retrieval _) => False
  end.
Proof.
  induction goldens as [|g rest IH]; simpl; [constructor|].
  destruct (dict_get actual_outputs (id g)) as [actual|] eqn:Hget.
  - destruct (build_test_cases rest actual_outputs) as [[e|key]|tcs].
    + exact IH.
    + destruct IH as (before & g0 & after & -> & Hkey & Hnone & Hbefore).
      exists (g :: before), g0, after. repeat split; try assumption.
      intros g' [<-|Hg']; [congruence | now apply Hbefore].
    + constructor; [simpl; auto | exact IH].
  - exists [], g, rest. repeat split; try assumption. intros g' [].
Qed.

(** * Properties of the weather agent *)

Import Agentic.

(** ** Substrings and splitting *)

Lemma startswith_app (s t needle : str) :
  startswith s needle = true -> startswith (s ++ t) needle = true.
Proof.
  revert needle. induction s as [|c s IH]; intros [|p needle]; simpl;
    intros H; try reflexivity; try discriminate.
  { destruct t; reflexivity. }
  apply andb_true_iff in H. destruct H as [Hc Hs].
  now rewrite Hc, IH.
Qed.

Lemma contains_app_l (s t needle : str) :
  contains s needle = true -> contains (s ++ t) needle = true.
Proof.
  induction s as [|c s IH]; simpl; intros H.
  - rewrite orb_false_r in H. destruct needle; [|discriminate].
    destruct t; reflexivity.
  - apply orb_true_iff in H. apply orb_true_iff. destruct H as [H|H].
    + left. now apply (startswith_app (c :: s) t).
    + right. now apply IH.
Qed.

Lemma contains_app_r (s t needle : str) :
  contains t needle = true -> contains (s ++ t) needle = true.
Proof.
  intros H. induction s as [|c s IH]; simpl; [exact H|].
  rewrite IH. apply orb_true_r.
Qed.

(** A string without the needle has no part with it. *)
Lemma contains_part (a x b needle : str) :
  contains (a ++ x ++ b) needle = false -> contains x needle = false.
Proof.
  intros H. destruct (contains x needle) eqn:E; [|reflexivity].
  rewrite (contains_app_r a (x ++ b) needle) in H; [discriminate|].
  now apply contains_app_l.
Qed.

Lemma lstrip_suffix (s : str) : exists a, s = a ++ lstrip s.
Proof.
  induction s as [|c s [a Ha]]; simpl; [now exists []|].
  destruct (isspace c); [|now exists []].
  exists (c :: a). simpl. now rewrite <- Ha.
Qed.

Lemma strip_part (s : str) : exists a b, s = a ++ strip s ++ b.
Proof.
  destruct (lstrip_suffix s) as [a Ha].
  destruct (lstrip_suffix (rev (lstrip s))) as [b Hb].
  exists a, (rev b). unfold strip, rstrip.
  rewrite <- rev_app_distr, <- Hb, rev_involutive. exact Ha.
Qed.

Lemma lstrip_chars_suffix (s chars : str) :
  exists a, s = a ++ lstrip_chars s chars.
Proof.
  induction s as [|c s [a Ha]]; simpl; [now exists []|].
  destruct (existsb (N.eqb c) chars); [|now exists []].
  exists (c :: a). simpl. now rewrite <- Ha.
Qed.

Lemma rstrip_chars_prefix (s chars : str) :
  exists b, s = rstrip_chars s chars ++ b.
Proof.
  destruct (lstrip_chars_suffix (rev s) chars) as [b Hb].
  exists (rev b). unfold rstrip_chars.
  now rewrite <- rev_app_distr, <- Hb, rev_involutive.
Qed.

Lemma split_from_skip (sep : str) (text : str) :
  forall skip, split_from sep skip text = split_from sep 0 (skipn skip text).
Proof.
  induction text as [|c rest IH]; intros [|k]; try reflexivity.
  simpl. apply IH.
Qed.

Lemma split_from_not_nil (sep : str) (text : str) :
  forall skip, split_from sep skip text <> [].
Proof.
  induction text as [|c rest IH]; intros skip; cbn [split_from];
    [discriminate|].
  destruct skip; [|apply IH].
  destruct (startswith (c :: rest) sep); [discriminate|].
  destruct (split_from sep 0 rest); discriminate.
Qed.

(** A text that splits into one piece is that piece. *)
Lemma split_from_single (sep : str) (text piece : str) :
  split_from sep 0 text = [piece] -> piece = text.
Proof.
  revert piece. induction text as [|c rest IH]; intros piece H;
    cbn [split_from] in H.
  - now inversion H.
  - destruct (startswith (c :: rest) sep).
    + inversion H as [[Hp Hrest]].
      now apply split_from_not_nil in Hrest.
    + destruct (split_from sep 0 rest) as [|p ps] eqn:E;
        [now apply split_from_not_nil in E|].
      inversion H. subst. f_equal. now apply IH.
Qed.

Lemma last_cons_not_nil {A : Type} (x : A) (l : list A) (d : A) :
  l <> [] -> List.last (x :: l) d = List.last l d.
Proof. destruct l; [contradiction | reflexivity]. Qed.

(** The last piece of a split holds no separator. *)
Lemma last_piece_no_sep (sep : str) :
  sep <> [] ->
  forall n text,
    (List.length text <= n)%nat ->
    contains (last_piece (split_from sep 0 text)) sep = false.
Proof.
  intros Hsep. induction n as [|n IH]; intros text Hlen.
  - destruct text; [|simpl in Hlen; lia].
    simpl. destruct sep; [contradiction | reflexivity].
  - destruct text as [|c rest].
    + simpl. destruct sep; [contradiction | reflexivity].
    + simpl in Hlen. cbn [split_from].
      destruct (startswith (c :: rest) sep) eqn:Hstart.
      * unfold last_piece.
        rewrite last_cons_not_nil by apply split_from_not_nil.
        rewrite split_from_skip. apply IH.
        rewrite length_skipn. lia.
      * pose proof (IH rest ltac:(lia)) as Hrest.
        destruct (split_from sep 0 rest) as [|p ps] eqn:E;
          [now apply split_from_not_nil in E|].
        destruct ps as [|q qs].
        -- apply split_from_single in E. subst p.
           unfold last_piece in *. simpl in Hrest. simpl List.last.
           cbn [contains]. fold (startswith (c :: rest) sep).
           now rewrite Hstart, Hrest.
        -- exact Hrest.
Qed.

(** ** The claims the agent's code supports *)

(** The city the agent reads from the user input never holds "in": the
    input is split on "in" and the last piece is taken.  So a city whose
    name holds "in" cannot be the city the agent asks the tool for. *)
Theorem parse_city_no_in (user_input : str) :
  contains (parse_city user_input) (py "in") = false
  /\ forall city,
       contains city (py "in") = true -> parse_city user_input <> city.
Proof.
  assert (H : contains (parse_city user_input) (py "in") = false).
  { unfold parse_city, split_str.
    pose proof (last_piece_no_sep (py "in") ltac:(discriminate)
                  (List.length user_input) user_input (Nat.le_refl _)) as Hlast.
    destruct (strip_part (last_piece (split_from (py "in") 0 user_input)))
      as (a & b & Hstrip).
    destruct (rstrip_chars_prefix
                (strip (last_piece (split_from (py "in") 0 user_input)))
                (py "?")) as (b' & Hr).
    rewrite Hstrip in Hlast. apply contains_part in Hlast.
    rewrite Hr in Hlast.
    apply (contains_part [] _ b'). exact Hlast. }
  split; [exact H|].
  intros city Hcity Heq. rewrite Heq in H. congruence.
Qed.

(** On "What is the weather in Beijing?" the agent asks for the city "g". *)
Lemma parse_city_example :
  parse_city (py "What is the weather in Jakarta?") = py "Jakarta"
  /\ parse_city (py "What is the weather in Beijing?") = py "g".
Proof. split; vm_compute; reflexivity. Qed.

Lemma filter_nil_iff {A : Type} (f : A -> bool) (l : list A) :
  filter f l = [] <-> forall x, In x l -> f x = false.
Proof.
  induction l as [|a l IH]; simpl.
  - split; [intros _ x [] | reflexivity].
  - destruct (f a) eqn:E.
    + split; [discriminate|]. intros H.
      specialize (H a (or_introl eq_refl)). congruence.
    + rewrite IH. split.
      * intros H x [<-|Hx]; [assumption | now apply H].
      * intros H x Hx. apply H. now right.
Qed.

Lemma wrong_lines_nil (lower : str -> str) (knowledge_base city : str) :
  wrong_lines lower knowledge_base city = []
  <-> forall l, In l (split knowledge_base newline) ->
        strip l = [] \/ contains (lower l) (lower city) = true.
Proof.
  unfold wrong_lines. rewrite filter_nil_iff.
  split; intros H l Hl; specialize (H l Hl).
  - destruct (strip l); [now left|]. simpl in H.
    right. now destruct (contains (lower l) (lower city)).
  - destruct H as [-> | ->]; [reflexivity|].
    destruct (strip l); reflexivity.
Qed.

Lemma fetch_weather_index_error_aux (lower : str -> str)
    (knowledge_base : str) (r : R) (pick : nat) (city : str) :
  fetch_weather lower knowledge_base r pick city = inl IndexError
  <-> (r < 2 / 10 /\ wrong_lines lower knowledge_base city = []).
Proof.
  unfold fetch_weather.
  destruct (Rlt_dec r (2 / 10)) as [Hlt|Hge].
  - destruct (wrong_lines lower knowledge_base city) eqn:E.
    + split; [now split | reflexivity].
    + split; [discriminate | intros [_ H]; discriminate].
  - destruct (find _ _); split; try discriminate; intros [H _]; contradiction.
Qed.

(** [fetch_weather] raises exactly in its noisy branch, when the draw is
    below 0.2, and only if the knowledge base has no line to choose from:
    every line is blank or names the city. *)
Theorem fetch_weather_index_error (lower : str -> str)
    (knowledge_base : str) (r : R) (pick : nat) (city : str) :
  fetch_weather lower knowledge_base r pick city = inl IndexError
  <-> (r < 2 / 10
       /\ forall l, In l (split knowledge_base newline) ->
            strip l = [] \/ contains (lower l) (lower city) = true).
Proof.
  rewrite <- wrong_lines_nil. apply fetch_weather_index_error_aux.
Qed.

Lemma weather_no_is (line : str) :
  contains (strip (last_piece (split_str line (py "is")))) (py "is") = false.
Proof.
  unfold split_str.
  pose proof (last_piece_no_sep (py "is") ltac:(discriminate)
                (List.length line) line (Nat.le_refl _)) as Hlast.
  destruct (strip_part (last_piece (split_from (py "is") 0 line)))
    as (a & b & Hstrip).
  rewrite Hstrip in Hlast. now apply contains_part in Hlast.
Qed.

(** What [fetch_weather] returns is either the fixed sentence for a city
    that no line names, or a weather text followed by " in ", the city and
    "!"; the weather text, cut after the last "is" of a line, never holds
    "is". *)
Theorem fetch_weather_report (lower : str -> str) (knowledge_base : str)
    (r : R) (pick : nat) (city answer : str) :
  fetch_weather lower knowledge_base r pick city = inr answer ->
  (answer = py "No weather data available for " ++ city ++ py "."
   /\ ~ r < 2 / 10
   /\ forall l, In l (split knowledge_base newline) ->
        contains (lower l) (lower city) = false)
  \/ exists weather,
       answer = weather ++ py " in " ++ city ++ py "!"
       /\ contains weather (py "is") = false.
Proof.
  unfold fetch_weather.
  destruct (Rlt_dec r (2 / 10)) as [Hlt|Hge].
  - destruct (wrong_lines lower knowledge_base city) eqn:E; [discriminate|].
    intros H. inversion H. right. eexists. split; [reflexivity|].
    apply weather_no_is.
  - destruct (find _ _) as [line|] eqn:Hfind; intros H; inversion H.
    + right. eexists. split; [reflexivity|].
      pose proof (weather_no_is line) as Hno.
      destruct (rstrip_chars_prefix
                  (strip (last_piece (split_str line (py "is")))) (py "."))
        as [b Hb].
      rewrite Hb in Hno. now apply (contains_part [] _ b).
    + left. repeat split; [assumption|].
      intros l Hl. exact (find_none _ _ Hfind l Hl).
Qed.

Lemma fetch_weather_report_witness :
  (py "Sunny in Jakarta!"
   = py "No weather data available for " ++ py "Jakarta" ++ py "."
   /\ ~ 1 < 2 / 10
   /\ forall l, In l (split (py "Jakarta is Sunny.") newline) ->
        contains l (py "Jakarta") = false)
  \/ exists weather,
       py "Sunny in Jakarta!" = weather ++ py " in " ++ py "Jakarta" ++ py "!"
       /\ contains weather (py "is") = false.
Proof.
  apply (fetch_weather_report (fun s => s) (py "Jakarta is Sunny.") 1 0
           (py "Jakarta") (py "Sunny in Jakarta!")).
  unfold fetch_weather.
  destruct (Rlt_dec 1 (2 / 10)) as [Hlt|_]; [lra|].
  reflexivity.
Defined.

(** The agent raises exactly when it has not misunderstood (its draw is not
    below 0.3), the input mentions "weather", the tool is in its noisy
    branch, and every line of the knowledge base is blank or names the city
    read from the input. *)
Theorem weather_agent_index_error (lower : str -> str)
    (knowledge_base : str) (r1 r2 : R) (pick : nat) (user_input : str) :
  weather_agent lower knowledge_base r1 r2 pick user_input = inl IndexError
  <-> (~ r1 < 3 / 10
       /\ contains (lower user_input) (py "weather") = true
       /\ r2 < 2 / 10
       /\ forall l, In l (split knowledge_base newline) ->
            strip l = []
            \/ contains (lower l) (lower (parse_city user_input)) = true).
Proof.
  unfold weather_agent, call_weather_tool.
  pose proof (fetch_weather_index_error_aux lower knowledge_base r2 pick
                (parse_city user_input)) as Hfetch.
  destruct (Rlt_dec r1 (3 / 10)) as [Hlt|Hge].
  - split; [discriminate | intros [H _]; contradiction].
  - destruct (contains (lower user_input) (py "weather")).
    + destruct (fetch_weather lower knowledge_base r2 pick
                  (parse_city user_input)) as [[]|answer].
      * split; [intros _ | reflexivity].
        destruct (proj1 Hfetch eq_refl) as [H2 Hall].
        pose proof (proj1 (wrong_lines_nil _ _ _) Hall). auto.
      * split; [discriminate|]. intros (_ & _ & H2 & Hall).
        pose proof (proj2 (wrong_lines_nil _ _ _) Hall) as Hnil.
        pose proof (proj2 Hfetch (conj H2 Hnil)). discriminate.
    + split; [discriminate | intros (_ & H & _); discriminate].
Qed.
